(** * bitnuc: 2-bit packing of nucleotide sequences

    A shallow embedding of the [bitnuc] crate: the public entry points
    [as_2bit] (src/utils/packing/mod.rs) and [from_2bit]
    (src/utils/unpacking/mod.rs), the scalar backend, and the vectorized
    backends that [as_2bit] dispatches to.

    Conventions: a [u8] is a [byte]; a [u64] is a [Z] whose 64-bit
    wrap-around is written out with [u64_mask]; a [usize] is a [nat];
    [Result<T, NucleotideError>] is [Res T], with one more outcome,
    [Panic], for the [unreachable!()] arm of [from_2bit]. *)

From Stdlib Require Import List ZArith Lia Bool Arith Strings.Byte.
Import ListNotations.
Open Scope Z_scope.

(** ** Errors and results *)

Inductive NucleotideError :=
| InvalidBase (b : byte)
| SequenceTooLong (len : nat)
| InvalidLength (len : nat).

Inductive Res (A : Type) :=
| Ok (a : A)
| Err (e : NucleotideError)
| Panic.
Arguments Ok {A} a.
Arguments Err {A} e.
Arguments Panic {A}.

Definition u64_mask : Z := Z.ones 64.

(** ** Symbol table *)

(** [encode]: the match arms of the scalar backend
    ([b'A' | b'a' => 0b00], ...); [None] is the [InvalidBase] arm. *)
Definition encode (b : byte) : option Z :=
  match b with
  | x41 | x61 => Some 0
  | x43 | x63 => Some 1
  | x47 | x67 => Some 2
  | x54 | x74 => Some 3
  | _ => None
  end.

Definition is_valid (b : byte) : bool :=
  match encode b with Some _ => true | None => false end.

(** [decode]: the [match bits] of [from_2bit]; [None] is the
    [_ => unreachable!()] arm. *)
Definition decode (bits : Z) : option byte :=
  if bits =? 0 then Some x41
  else if bits =? 1 then Some x43
  else if bits =? 2 then Some x47
  else if bits =? 3 then Some x54
  else None.

(** [u8::to_ascii_uppercase]. *)
Definition to_upper (b : byte) : byte :=
  let n := Byte.to_N b in
  if ((97 <=? n) && (n <=? 122))%N then
    match Byte.of_N (n - 32) with Some b' => b' | None => b end
  else b.

Definition uppercase (s : list byte) : list byte := map to_upper s.

(** ** Unpacking: [from_2bit] (src/utils/unpacking/mod.rs) *)

Section Unpack.
Variable packed : Z.

(** The body of [for i in 0..expected_size]: [fuel] iterations remain,
    [i] is the current index, [sequence] the vector pushed so far. *)
Fixpoint from_2bit_loop (fuel i : nat) (sequence : list byte) : Res (list byte) :=
  match fuel with
  | O => Ok sequence
  | S fuel' =>
      let bits := Z.land (Z.shiftr packed (Z.of_nat (i * 2))) 3 in
      match decode bits with
      | Some base => from_2bit_loop fuel' (S i) (sequence ++ [base])
      | None => Panic
      end
  end.
End Unpack.

Definition from_2bit (packed : Z) (expected_size : nat) : Res (list byte) :=
  if (32 <? expected_size)%nat then Err (InvalidLength expected_size)
  else from_2bit_loop packed expected_size 0 [].

Example from_2bit_ACGT : from_2bit 228 4 = Ok [x41; x43; x47; x54].
Proof. reflexivity. Qed.
Example from_2bit_AC : from_2bit 228 2 = Ok [x41; x43].
Proof. reflexivity. Qed.
Example from_2bit_33 : from_2bit 0 33 = Err (InvalidLength 33).
Proof. reflexivity. Qed.

(** ** Packing backends

    The modules [naive], [avx] and [aarch64] that [as_2bit] delegates to
    are not part of the sources at hand; they are modelled below from the
    spec (sections 4.2 and 4.3). *)

(** Modelled from the spec: the scalar backend [naive::as_2bit] (spec 4.2).
    Positions are scanned left to right; the first byte without a code
    aborts with its raw value; otherwise [code << 2*i] is OR-ed into a u64
    accumulator that starts at zero.  The length bound is checked by the
    backend itself (spec 4.2: "or redundantly by the backend itself"),
    since the dispatcher [as_2bit] below performs no check. *)
Fixpoint naive_loop (seq : list byte) (i : nat) (packed : Z) : Res Z :=
  match seq with
  | [] => Ok packed
  | base :: rest =>
      match encode base with
      | None => Err (InvalidBase base)
      | Some bits =>
          naive_loop rest (S i)
            (Z.lor packed (Z.land (Z.shiftl bits (Z.of_nat (i * 2))) u64_mask))
      end
  end.

Definition naive_as_2bit (seq : list byte) : Res Z :=
  if (32 <? length seq)%nat then Err (SequenceTooLong (length seq))
  else naive_loop seq 0 0.

(** *** Vectorized backends *)

(** The byte a lane-wise table lookup yields for an invalid input byte:
    out of band, since every 2-bit code is taken. *)
Definition SENTINEL : Z := 255.
(** The filler that pads a partial tail chunk (a valid symbol, 'A'). *)
Definition FILLER : byte := x41.

(** Modelled from the spec: the lane-wise translation table (spec 4.3). *)
Definition lookup (b : byte) : Z :=
  match encode b with Some c => c | None => SENTINEL end.

(** Modelled from the spec: the validity reduction, one mask bit per lane
    (lane 0 in bit 0) set where the lane holds the sentinel. *)
Fixpoint movemask (lanes : list Z) : Z :=
  match lanes with
  | [] => 0
  | l :: ls => Z.b2z (l =? SENTINEL) + 2 * movemask ls
  end.

(** [trailing_zeros] of a [w]-bit mask: index of its lowest set bit,
    [w] when no bit is set. *)
Fixpoint trailing_zeros (w : nat) (m : Z) : nat :=
  match w with
  | O => O
  | S w' => if Z.testbit m 0 then O else S (trailing_zeros w' (Z.shiftr m 1))
  end.

(** Modelled from the spec: packing the per-lane 2-bit codes of a chunk,
    lane [j] at bit pair [2j]. *)
Fixpoint pack_lanes (lanes : list Z) : Z :=
  match lanes with
  | [] => 0
  | l :: ls => Z.lor l (Z.shiftl (pack_lanes ls) 2)
  end.

Section Vectorized.
(** The native lane width, in bytes, of the backend. *)
Variable width : nat.
Variable seq : list byte.

(** Modelled from the spec: the chunk loop of a vectorized backend
    (spec 4.3).  The chunk at [off] is padded to [width] lanes with
    [FILLER]; on an invalid lane the lowest set bit of the mask, offset by
    [off], indexes back into the input for the raw byte; otherwise the
    chunk's codes, masked to its real length, are OR-ed in at bit
    [2*off].  [fuel] bounds the number of chunks. *)
Fixpoint vec_loop (fuel off : nat) (packed : Z) : Res Z :=
  match fuel with
  | O => Ok packed
  | S fuel' =>
      if (off <? length seq)%nat then
        let chunk := firstn width (skipn off seq) in
        let k := length chunk in
        let lanes := map lookup (chunk ++ repeat FILLER (width - k)) in
        let mask := movemask lanes in
        if mask =? 0 then
          let bits := Z.land (pack_lanes lanes) (Z.ones (Z.of_nat (2 * k))) in
          vec_loop fuel' (off + width)
            (Z.lor packed (Z.land (Z.shiftl bits (Z.of_nat (2 * off))) u64_mask))
        else Err (InvalidBase (nth (off + trailing_zeros width mask) seq FILLER))
      else Ok packed
  end.

(** Modelled from the spec: a vectorized backend of lane width [width]. *)
Definition vec_as_2bit : Res Z :=
  if (32 <? length seq)%nat then Err (SequenceTooLong (length seq))
  else vec_loop (length seq) 0 0.
End Vectorized.

(** Modelled from the spec: [aarch64::as_2bit], 128-bit NEON lanes. *)
Definition neon_as_2bit (seq : list byte) : Res Z := vec_as_2bit 16 seq.
(** Modelled from the spec: [avx::as_2bit], 256-bit AVX lanes. *)
Definition avx_as_2bit (seq : list byte) : Res Z := vec_as_2bit 32 seq.

(** ** The dispatcher [as_2bit] (src/utils/packing/mod.rs) *)

Inductive Arch := Aarch64 | X86_64 | OtherArch.

(** The compile-time configuration and the runtime capability probes. *)
Record Config := mkConfig {
  target_arch : Arch;
  feature_nosimd : bool;
  neon_detected : bool;
  avx_detected : bool
}.

Record Backends := mkBackends {
  naive_b : list byte -> Res Z;
  aarch64_b : list byte -> Res Z;
  avx_b : list byte -> Res Z
}.

Definition arch_eqb (a b : Arch) : bool :=
  match a, b with
  | Aarch64, Aarch64 | X86_64, X86_64 | OtherArch, OtherArch => true
  | _, _ => false
  end.

(** The body of [as_2bit], over the backends it may call.  The three
    [#[cfg]] blocks are tried in order; the third one's condition holds
    whenever the first two are compiled out, so the last branch is it. *)
Definition as_2bit_with (bk : Backends) (cfg : Config) (seq : list byte) : Res Z :=
  if arch_eqb (target_arch cfg) Aarch64 && negb (feature_nosimd cfg) then
    if neon_detected cfg then aarch64_b bk seq else naive_b bk seq
  else if arch_eqb (target_arch cfg) X86_64 && negb (feature_nosimd cfg) then
    if avx_detected cfg then avx_b bk seq else naive_b bk seq
  else naive_b bk seq.

Definition backends : Backends := mkBackends naive_as_2bit neon_as_2bit avx_as_2bit.

Definition as_2bit (cfg : Config) (seq : list byte) : Res Z :=
  as_2bit_with backends cfg seq.

Definition cfg_scalar : Config := mkConfig OtherArch true false false.
Definition cfg_avx : Config := mkConfig X86_64 false false true.
Definition cfg_neon : Config := mkConfig Aarch64 false true false.

Example as_2bit_ACGT : as_2bit cfg_scalar [x41; x43; x47; x54] = Ok 228.
Proof. reflexivity. Qed.
Example as_2bit_ACGN : as_2bit cfg_avx [x41; x43; x47; x4e] = Err (InvalidBase x4e).
Proof. reflexivity. Qed.
Example as_2bit_alignments :
  as_2bit cfg_neon
    [x41; x43; x54; x47; x47; x41; x41; x41; x41; x54; x54; x54; x54; x41; x41; x47; x47]
  = Ok 10804265652.
Proof. reflexivity. Qed.
Example as_2bit_33 : as_2bit cfg_neon (repeat x41 33) = Err (SequenceTooLong 33).
Proof. reflexivity. Qed.

(** ** Reference semantics of packing *)

Definition code_of (b : byte) : Z :=
  match encode b with Some c => c | None => 0 end.

(** The first byte of [s], in scan order, that has no code. *)
Definition first_invalid (s : list byte) : option byte :=
  find (fun b => negb (is_valid b)) s.

(** The codes of [s], position [i] at bit pair [2i]. *)
Fixpoint codes_packed (s : list byte) : Z :=
  match s with
  | [] => 0
  | b :: s' => Z.lor (code_of b) (Z.shiftl (codes_packed s') 2)
  end.

Definition pack_ref (s : list byte) : Res Z :=
  if (32 <? length s)%nat then Err (SequenceTooLong (length s))
  else match first_invalid s with
       | Some b => Err (InvalidBase b)
       | None => Ok (codes_packed s)
       end.

(** ** Lemmas *)

Lemma encode_code_of b c : encode b = Some c -> c = code_of b.
Proof. unfold code_of. intros ->. reflexivity. Qed.

Lemma code_of_range b : 0 <= code_of b < 4.
Proof. destruct b; cbv; split; congruence. Qed.

Lemma lor_small_shift c P :
  0 <= c < 4 -> 0 <= P -> Z.lor c (Z.shiftl P 2) = c + 4 * P.
Proof.
  intros Hc HP.
  assert (Hd : Z.land c (Z.shiftl P 2) = 0).
  { apply Z.bits_inj'. intros n Hn. rewrite Z.land_spec, Z.bits_0.
    destruct (Z.lt_ge_cases n 2).
    - rewrite Z.shiftl_spec_low by lia. apply andb_false_r.
    - assert (Z.testbit c n = false) as ->; [|reflexivity].
      destruct (Z.eq_dec c 0) as [->|]; [apply Z.bits_0|].
      apply Z.bits_above_log2; [lia|].
      assert (Z.log2 c < 2); [|lia].
      apply Z.log2_lt_pow2; cbn; lia. }
  rewrite <- Z.lxor_lor by exact Hd.
  rewrite <- Z.add_nocarry_lxor by exact Hd.
  rewrite Z.shiftl_mul_pow2 by lia. change (2 ^ 2) with 4. lia.
Qed.

Lemma codes_packed_cons b s :
  codes_packed (b :: s) = code_of b + 4 * codes_packed s.
Proof.
  cbn [codes_packed]. apply lor_small_shift; [apply code_of_range|].
  induction s as [|b' s IH]; [cbn; lia|].
  cbn [codes_packed]. apply Z.lor_nonneg; split; [apply code_of_range|].
  apply Z.shiftl_nonneg; exact IH.
Qed.

Lemma codes_packed_range s :
  0 <= codes_packed s < 2 ^ Z.of_nat (2 * length s).
Proof.
  induction s as [|b s IH]; [cbn; lia|].
  rewrite codes_packed_cons. pose proof (code_of_range b).
  replace (Z.of_nat (2 * length (b :: s))) with (2 + Z.of_nat (2 * length s))
    by (cbn [length]; lia).
  rewrite Z.pow_add_r by lia. change (2 ^ 2) with 4. nia.
Qed.

Lemma codes_packed_app s1 s2 :
  codes_packed (s1 ++ s2)
  = Z.lor (codes_packed s1) (Z.shiftl (codes_packed s2) (Z.of_nat (2 * length s1))).
Proof.
  induction s1 as [|b s1 IH]; cbn [app codes_packed length].
  - rewrite Z.shiftl_0_r, Z.lor_0_l. reflexivity.
  - rewrite IH, Z.shiftl_lor, Z.shiftl_shiftl by lia.
    rewrite Z.lor_assoc. do 3 f_equal. lia.
Qed.

Lemma find_app {A} (f : A -> bool) l1 l2 :
  find f (l1 ++ l2) = match find f l1 with Some x => Some x | None => find f l2 end.
Proof.
  induction l1 as [|x l1 IH]; [reflexivity|]. cbn. destruct (f x); auto.
Qed.

Lemma first_invalid_app s1 s2 :
  first_invalid (s1 ++ s2)
  = match first_invalid s1 with Some b => Some b | None => first_invalid s2 end.
Proof. apply find_app. Qed.

(** Dropping the u64 wrap-around of a value that fits. *)
Lemma land_u64_small x : 0 <= x < 2 ^ 64 -> Z.land x u64_mask = x.
Proof.
  intros H. unfold u64_mask. rewrite Z.land_ones by lia.
  apply Z.mod_small. exact H.
Qed.

Lemma shiftl_fits x k n :
  0 <= x < 2 ^ Z.of_nat (2 * k) -> (k + n <= 32)%nat ->
  0 <= Z.shiftl x (Z.of_nat (2 * n)) < 2 ^ 64.
Proof.
  intros Hx Hk. rewrite Z.shiftl_mul_pow2 by lia. split; [nia|].
  apply Z.lt_le_trans with (2 ^ Z.of_nat (2 * k) * 2 ^ Z.of_nat (2 * n)).
  - apply Z.mul_lt_mono_pos_r; [apply Z.pow_pos_nonneg|]; lia.
  - rewrite <- Z.pow_add_r by lia. apply Z.pow_le_mono_r; lia.
Qed.

Lemma first_invalid_cons b s :
  first_invalid (b :: s) = if is_valid b then first_invalid s else Some b.
Proof. unfold first_invalid. cbn. destruct (is_valid b); reflexivity. Qed.

(** The scalar backend's loop, from index [i] on. *)
Lemma naive_loop_spec s : forall i acc,
  (i + length s <= 32)%nat ->
  naive_loop s i acc
  = match first_invalid s with
    | Some b => Err (InvalidBase b)
    | None => Ok (Z.lor acc (Z.shiftl (codes_packed s) (Z.of_nat (2 * i))))
    end.
Proof.
  induction s as [|b s IH]; intros i acc Hlen.
  - cbn. rewrite Z.shiftl_0_l, Z.lor_0_r. reflexivity.
  - rewrite first_invalid_cons. cbn [naive_loop length] in *. unfold is_valid.
    destruct (encode b) as [c|] eqn:E; [|reflexivity].
    rewrite IH by lia. destruct (first_invalid s); [reflexivity|].
    apply encode_code_of in E. subst c. f_equal.
    rewrite Nat.mul_comm, land_u64_small.
    2: { apply (shiftl_fits _ 1); [cbn; pose proof (code_of_range b); lia | lia]. }
    cbn [codes_packed]. rewrite Z.shiftl_lor, Z.shiftl_shiftl by lia.
    rewrite Z.lor_assoc. do 3 f_equal. lia.
Qed.

Lemma naive_as_2bit_ref s : naive_as_2bit s = pack_ref s.
Proof.
  unfold naive_as_2bit, pack_ref.
  destruct (Nat.ltb_spec 32 (length s)); [reflexivity|].
  rewrite naive_loop_spec by lia.
  destruct (first_invalid s); [reflexivity|].
  cbn [Nat.mul Z.of_nat]. rewrite Z.shiftl_0_r, Z.lor_0_l. reflexivity.
Qed.

(** *** Chunk-level facts of the vectorized model *)

Lemma lookup_valid b : is_valid b = true -> lookup b = code_of b.
Proof. unfold is_valid, lookup, code_of. destruct (encode b); congruence. Qed.

Lemma lookup_invalid b : is_valid b = false -> lookup b = SENTINEL.
Proof. unfold is_valid, lookup. destruct (encode b); congruence. Qed.

Lemma movemask_nonneg lanes : 0 <= movemask lanes.
Proof.
  induction lanes as [|l ls IH]; cbn [movemask]; [lia|].
  destruct (l =? SENTINEL); cbn [Z.b2z]; lia.
Qed.

Lemma lookup_code_ne_sentinel b : is_valid b = true -> (lookup b =? SENTINEL) = false.
Proof.
  intros H. rewrite lookup_valid by exact H. pose proof (code_of_range b).
  apply Z.eqb_neq. unfold SENTINEL. lia.
Qed.

Lemma is_valid_FILLER : is_valid FILLER = true.
Proof. reflexivity. Qed.

Lemma movemask_valid l :
  forallb is_valid l = true -> movemask (map lookup l) = 0.
Proof.
  induction l as [|b l IH]; [reflexivity|]. cbn [forallb map movemask].
  intros [Hb Hl]%andb_prop. rewrite lookup_code_ne_sentinel, IH by assumption.
  reflexivity.
Qed.

Lemma forallb_repeat_FILLER n : forallb is_valid (repeat FILLER n) = true.
Proof. induction n; cbn; auto. Qed.

Lemma first_invalid_None l : first_invalid l = None <-> forallb is_valid l = true.
Proof.
  induction l as [|b l IH]; [cbn; tauto|].
  rewrite first_invalid_cons. cbn [forallb].
  destruct (is_valid b); cbn; [exact IH|split; discriminate].
Qed.

Lemma trailing_zeros_0 w : trailing_zeros w 0 = w.
Proof. induction w as [|w IH]; cbn; [reflexivity|]. rewrite IH. reflexivity. Qed.

(** The lowest set bit of the invalid-lane mask is the index of the first
    invalid byte of the chunk, whatever the padding after it. *)
Lemma trailing_zeros_first_invalid l : forall pad w b,
  first_invalid l = Some b -> (length l <= w)%nat ->
  let t := trailing_zeros w (movemask (map lookup (l ++ pad))) in
  (t < length l)%nat /\ nth t l FILLER = b.
Proof.
  induction l as [|x l IH]; intros pad w b Hf Hw; [discriminate|].
  destruct w as [|w]; [cbn in Hw; lia|].
  rewrite first_invalid_cons in Hf. cbn [app map movemask trailing_zeros length] in *.
  destruct (is_valid x) eqn:V.
  - rewrite lookup_code_ne_sentinel by exact V. cbn [Z.b2z]. rewrite Z.add_0_l.
    rewrite Z.testbit_even_0.
    replace (Z.shiftr (2 * movemask (map lookup (l ++ pad))) 1)
      with (movemask (map lookup (l ++ pad))).
    2: { rewrite Z.shiftr_div_pow2 by lia. change (2 ^ 1) with 2.
         rewrite Z.mul_comm, Z.div_mul by lia. reflexivity. }
    destruct (IH pad w b Hf ltac:(lia)) as [Ht Hn]. cbn. split; [lia|exact Hn].
  - injection Hf as <-. rewrite lookup_invalid by exact V.
    rewrite Z.eqb_refl. cbn [Z.b2z].
    rewrite Z.add_comm, Z.testbit_odd_0. cbn. split; [lia|reflexivity].
Qed.

Lemma pack_lanes_valid l :
  forallb is_valid l = true -> pack_lanes (map lookup l) = codes_packed l.
Proof.
  induction l as [|b l IH]; [reflexivity|]. cbn [forallb map pack_lanes codes_packed].
  intros [Hb Hl]%andb_prop. rewrite lookup_valid, IH by assumption. reflexivity.
Qed.

Lemma codes_packed_pad l n : codes_packed (l ++ repeat FILLER n) = codes_packed l.
Proof.
  rewrite codes_packed_app.
  assert (codes_packed (repeat FILLER n) = 0) as ->.
  { induction n as [|n IH]; [reflexivity|]. cbn [repeat codes_packed].
    rewrite IH. reflexivity. }
  rewrite Z.shiftl_0_l, Z.lor_0_r. reflexivity.
Qed.

Lemma nth_skipn_add {A} k : forall n (l : list A) d, nth (k + n) l d = nth n (skipn k l) d.
Proof.
  induction k as [|k IH]; intros n l d; [reflexivity|].
  destruct l; cbn; [destruct n; reflexivity|apply IH].
Qed.

(** The chunk loop of a vectorized backend of any lane width computes, from
    offset [off] on, what the scalar backend computes on [skipn off seq]. *)
Lemma vec_loop_spec w seq :
  (1 <= w)%nat -> (length seq <= 32)%nat ->
  forall fuel off acc, (length seq <= off + fuel * w)%nat ->
  vec_loop w seq fuel off acc
  = match first_invalid (skipn off seq) with
    | Some b => Err (InvalidBase b)
    | None => Ok (Z.lor acc (Z.shiftl (codes_packed (skipn off seq)) (Z.of_nat (2 * off))))
    end.
Proof.
  intros Hw Hlen fuel. induction fuel as [|fuel IH]; intros off acc Hf.
  - rewrite skipn_all2 by lia. cbn. rewrite Z.shiftl_0_l, Z.lor_0_r. reflexivity.
  - cbn [vec_loop]. destruct (Nat.ltb_spec off (length seq)) as [Hoff|Hoff].
    2: { rewrite skipn_all2 by lia. cbn. rewrite Z.shiftl_0_l, Z.lor_0_r. reflexivity. }
    remember (skipn off seq) as rest0 eqn:Hr0.
    assert (Hlr0 : length rest0 = (length seq - off)%nat) by (subst; apply length_skipn).
    assert (Hrest : skipn w rest0 = skipn (off + w) seq)
      by (subst; rewrite skipn_skipn; f_equal; lia).
    set (chunk := firstn w rest0).
    assert (Hsplit : rest0 = chunk ++ skipn w rest0) by (symmetry; apply firstn_skipn).
    assert (Hk : length chunk = Nat.min w (length rest0)) by apply length_firstn.
    rewrite Hsplit. rewrite first_invalid_app, codes_packed_app.
    destruct (first_invalid chunk) as [b|] eqn:Fc.
    + (* an invalid lane in this chunk *)
      destruct (trailing_zeros_first_invalid chunk (repeat FILLER (w - length chunk)) w b Fc
                  ltac:(lia)) as [Ht Hn].
      set (t := trailing_zeros w _) in Ht, Hn.
      assert (Hm : movemask (map lookup (chunk ++ repeat FILLER (w - length chunk))) <> 0).
      { intros E. unfold t in Ht. rewrite E, trailing_zeros_0 in Ht. lia. }
      apply Z.eqb_neq in Hm. rewrite Hm. fold t. f_equal. f_equal.
      rewrite nth_skipn_add, <- Hr0, Hsplit, app_nth1 by exact Ht. exact Hn.
    + (* a valid chunk *)
      apply first_invalid_None in Fc.
      rewrite movemask_valid
        by (rewrite forallb_app, Fc; apply forallb_repeat_FILLER).
      rewrite Z.eqb_refl.
      rewrite pack_lanes_valid
        by (rewrite forallb_app, Fc; apply forallb_repeat_FILLER).
      rewrite codes_packed_pad.
      pose proof (codes_packed_range chunk) as Hc.
      rewrite Z.land_ones, Z.mod_small by lia.
      rewrite land_u64_small by (apply (shiftl_fits _ (length chunk)); [exact Hc|lia]).
      rewrite IH by lia. rewrite <- Hrest.
      destruct (first_invalid (skipn w rest0)); [reflexivity|]. f_equal.
      destruct (Nat.eq_dec (length chunk) w) as [Ew|Ew].
      * rewrite Z.shiftl_lor, Z.shiftl_shiftl by lia. rewrite Z.lor_assoc.
        do 3 f_equal. lia.
      * rewrite (skipn_all2 rest0) by lia. cbn [codes_packed].
        rewrite !Z.shiftl_0_l, !Z.lor_0_r. reflexivity.
Qed.

Lemma vec_as_2bit_ref w seq : (1 <= w)%nat -> vec_as_2bit w seq = pack_ref seq.
Proof.
  intros Hw. unfold vec_as_2bit, pack_ref.
  destruct (Nat.ltb_spec 32 (length seq)); [reflexivity|].
  rewrite vec_loop_spec by nia. cbn [skipn].
  destruct (first_invalid seq); [reflexivity|].
  cbn [Nat.mul Z.of_nat]. rewrite Z.shiftl_0_r, Z.lor_0_l. reflexivity.
Qed.

Lemma as_2bit_ref cfg seq : as_2bit cfg seq = pack_ref seq.
Proof.
  unfold as_2bit, as_2bit_with, backends. cbn [naive_b aarch64_b avx_b].
  unfold neon_as_2bit, avx_as_2bit.
  rewrite !vec_as_2bit_ref, naive_as_2bit_ref by lia.
  destruct cfg as [[] [] [] []]; reflexivity.
Qed.

(** ** Unpacking lemmas *)

(** The 2-bit field [from_2bit] reads at index [i]. *)
Definition field (packed : Z) (i : nat) : Z :=
  Z.land (Z.shiftr packed (Z.of_nat (i * 2))) 3.

Definition decode_or_A (bits : Z) : byte :=
  match decode bits with Some b => b | None => x41 end.

Lemma decode_land3 x : decode (Z.land x 3) = Some (decode_or_A (Z.land x 3)).
Proof.
  unfold decode_or_A.
  assert (H : 0 <= Z.land x 3 < 4).
  { change 3 with (Z.ones 2). rewrite Z.land_ones by lia.
    apply Z.mod_pos_bound. lia. }
  destruct (decode (Z.land x 3)) eqn:E; [reflexivity|].
  exfalso. unfold decode in E.
  destruct (Z.land x 3 =? 0) eqn:E0; [discriminate|].
  destruct (Z.land x 3 =? 1) eqn:E1; [discriminate|].
  destruct (Z.land x 3 =? 2) eqn:E2; [discriminate|].
  destruct (Z.land x 3 =? 3) eqn:E3; [discriminate|].
  rewrite Z.eqb_neq in E0, E1, E2, E3. lia.
Qed.

Lemma from_2bit_loop_spec p fuel : forall i acc,
  from_2bit_loop p fuel i acc
  = Ok (acc ++ map (fun j => decode_or_A (field p j)) (seq i fuel)).
Proof.
  induction fuel as [|fuel IH]; intros i acc.
  - cbn. rewrite app_nil_r. reflexivity.
  - cbn [from_2bit_loop seq map]. rewrite decode_land3, IH.
    rewrite <- app_assoc. reflexivity.
Qed.

Lemma from_2bit_ok p L : (L <= 32)%nat ->
  from_2bit p L = Ok (map (fun j => decode_or_A (field p j)) (seq 0 L)).
Proof.
  intros HL. unfold from_2bit.
  destruct (Nat.ltb_spec 32 L); [lia|]. apply from_2bit_loop_spec.
Qed.

Lemma field_codes_packed s : forall j, (j < length s)%nat ->
  field (codes_packed s) j = code_of (nth j s x41).
Proof.
  unfold field. induction s as [|b s IH]; intros j Hj; [cbn in Hj; lia|].
  rewrite codes_packed_cons. pose proof (code_of_range b).
  pose proof (codes_packed_range s).
  destruct j as [|j].
  - cbn [Nat.mul Z.of_nat nth]. rewrite Z.shiftr_0_r.
    change 3 with (Z.ones 2). rewrite Z.land_ones by lia.
    change (2 ^ 2) with 4. rewrite Z.mul_comm, Z.mod_add by lia.
    apply Z.mod_small. lia.
  - cbn [nth length] in *. rewrite <- IH by lia.
    replace (Z.of_nat (S j * 2)) with (2 + Z.of_nat (j * 2)) by lia.
    rewrite <- Z.shiftr_shiftr by lia. f_equal. f_equal.
    rewrite Z.shiftr_div_pow2 by lia. change (2 ^ 2) with 4.
    rewrite Z.mul_comm, Z.div_add by lia. rewrite Z.div_small by lia. lia.
Qed.

Lemma decode_code_of b : is_valid b = true -> decode (code_of b) = Some (to_upper b).
Proof. destruct b; cbv; congruence. Qed.

Lemma to_upper_valid b : is_valid b = true ->
  is_valid (to_upper b) = true /\ code_of (to_upper b) = code_of b.
Proof. destruct b; cbv; try discriminate; split; reflexivity. Qed.

Lemma nth_map_lt {A B} (f : A -> B) l d d0 n :
  (n < length l)%nat -> nth n (map f l) d = f (nth n l d0).
Proof.
  intros Hn. rewrite (nth_indep _ d (f d0)) by (rewrite length_map; exact Hn).
  apply map_nth.
Qed.

(** ** The packed value as an OR over positions *)

(** The packed value the spec describes: the OR over positions [i] of
    [code(s[i]) << 2*i], accumulated from zero. *)
Definition pack_or (s : list byte) : Z :=
  fold_left (fun acc i => Z.lor acc (Z.shiftl (code_of (nth i s x41)) (Z.of_nat (2 * i))))
            (seq 0 (length s)) 0.

Lemma fold_left_ext_in {A B} (f g : A -> B -> A) l : forall acc,
  (forall a x, In x l -> f a x = g a x) -> fold_left f l acc = fold_left g l acc.
Proof.
  induction l as [|x l IH]; intros acc H; [reflexivity|]. cbn.
  rewrite H by (left; reflexivity). apply IH. intros a y Hy. apply H. right. exact Hy.
Qed.

Lemma pack_or_codes_packed s : pack_or s = codes_packed s.
Proof.
  induction s as [|b s IH] using rev_ind; [reflexivity|].
  unfold pack_or in *. rewrite length_app. cbn [length]. rewrite Nat.add_1_r.
  rewrite seq_S, fold_left_app. cbn [fold_left Nat.add].
  rewrite (fold_left_ext_in _
    (fun acc i => Z.lor acc (Z.shiftl (code_of (nth i s x41)) (Z.of_nat (2 * i))))).
  2: { intros a x Hx. apply in_seq in Hx. rewrite app_nth1 by lia. reflexivity. }
  rewrite IH, nth_middle, codes_packed_app. cbn [codes_packed].
  rewrite Z.shiftl_0_l, Z.lor_0_r. reflexivity.
Qed.

(** ** Claims *)

(** C1. For every sequence [s] over A/a/C/c/G/g/T/t of length [n <= 32],
    [as_2bit] succeeds and [from_2bit] of its result with length [n] is the
    uppercase form of [s], whatever backend the dispatcher selects. *)
Theorem as_2bit_from_2bit_roundtrip cfg s :
  forallb is_valid s = true -> (length s <= 32)%nat ->
  match as_2bit cfg s with
  | Ok p => from_2bit p (length s) = Ok (uppercase s)
  | _ => False
  end.
Proof.
  intros Hv Hlen. rewrite as_2bit_ref. unfold pack_ref.
  destruct (Nat.ltb_spec 32 (length s)); [lia|].
  apply first_invalid_None in Hv as Hf. rewrite Hf.
  rewrite from_2bit_ok by exact Hlen. f_equal. unfold uppercase.
  apply nth_ext with (d := x41) (d' := x41).
  { rewrite !length_map, length_seq. reflexivity. }
  intros n Hn. rewrite length_map, length_seq in Hn.
  rewrite (nth_map_lt _ _ _ 0%nat) by (rewrite length_seq; exact Hn).
  rewrite (nth_map_lt _ _ _ x41) by exact Hn.
  rewrite seq_nth by exact Hn. cbn [Nat.add].
  rewrite field_codes_packed by exact Hn. unfold decode_or_A.
  rewrite forallb_forall in Hv.
  rewrite decode_code_of by (apply Hv, nth_In, Hn). reflexivity.
Qed.

(** C2. For every valid [s] of length [n <= 32], [as_2bit] returns the OR
    over positions [i < n] of [code(s[i]) << 2*i] (A/a=00, C/c=01, G/g=10,
    T/t=11, position 0 in the least significant pair), and every bit of the
    result at position [>= 2*n] is zero. *)
Theorem as_2bit_bit_layout cfg s :
  forallb is_valid s = true -> (length s <= 32)%nat ->
  as_2bit cfg s = Ok (pack_or s)
  /\ forall k, Z.of_nat (2 * length s) <= k -> Z.testbit (pack_or s) k = false.
Proof.
  intros Hv Hlen. rewrite pack_or_codes_packed. split.
  - rewrite as_2bit_ref. unfold pack_ref.
    destruct (Nat.ltb_spec 32 (length s)); [lia|].
    apply first_invalid_None in Hv. rewrite Hv. reflexivity.
  - intros k Hk. pose proof (codes_packed_range s) as Hr.
    rewrite <- (Z.mod_small (codes_packed s) (2 ^ Z.of_nat (2 * length s))) by exact Hr.
    apply Z.mod_pow2_bits_high. lia.
Qed.

(** C3. For every packed value [p] and length [L <= 32], [from_2bit p L]
    succeeds with exactly [L] bytes, the byte at position [i] being the
    decoding of the 2-bit field [(p >> 2*i) & 0b11] (00->A, 01->C, 10->G,
    11->T). *)
Theorem from_2bit_fields p L :
  (L <= 32)%nat ->
  exists out, from_2bit p L = Ok out /\ length out = L
  /\ forall i, (i < L)%nat ->
     decode (Z.land (Z.shiftr p (Z.of_nat (2 * i))) 3) = Some (nth i out x41).
Proof.
  intros HL. eexists. split; [apply from_2bit_ok, HL|]. split.
  - rewrite length_map, length_seq. reflexivity.
  - intros i Hi.
    rewrite (nth_map_lt _ _ _ 0%nat) by (rewrite length_seq; exact Hi).
    rewrite seq_nth by exact Hi. cbn [Nat.add]. unfold field.
    rewrite Nat.mul_comm. apply decode_land3.
Qed.

(** C4. Every pack backend computes the same result as the scalar
    backend on every input (the same packed value, the same error and
    payload), so [as_2bit] equals the scalar backend whichever backend the
    configuration and the capability probes select. *)
Theorem backends_agree_with_scalar :
  (forall s, neon_as_2bit s = naive_as_2bit s)
  /\ (forall s, avx_as_2bit s = naive_as_2bit s)
  /\ (forall cfg s, as_2bit cfg s = naive_as_2bit s).
Proof.
  split; [|split]; intros.
  - unfold neon_as_2bit. rewrite vec_as_2bit_ref, naive_as_2bit_ref by lia. reflexivity.
  - unfold avx_as_2bit. rewrite vec_as_2bit_ref, naive_as_2bit_ref by lia. reflexivity.
  - rewrite as_2bit_ref, naive_as_2bit_ref. reflexivity.
Qed.

(** C5. On an input of length at most 32 whose first byte outside
    A/a/C/c/G/g/T/t, in scan order, is [b], [as_2bit] fails with
    [InvalidBase b] and returns no packed value. *)
Theorem as_2bit_first_invalid_base cfg pre b post :
  (length (pre ++ b :: post) <= 32)%nat ->
  forallb is_valid pre = true -> is_valid b = false ->
  as_2bit cfg (pre ++ b :: post) = Err (InvalidBase b).
Proof.
  intros Hlen Hpre Hb. rewrite as_2bit_ref. unfold pack_ref.
  destruct (Nat.ltb_spec 32 (length (pre ++ b :: post))); [lia|].
  rewrite first_invalid_app. apply first_invalid_None in Hpre. rewrite Hpre.
  rewrite first_invalid_cons, Hb. reflexivity.
Qed.

(** The scalar loop without the length check: a backend that relies on
    the length bound having been checked before it runs. *)
Definition unchecked_backend (s : list byte) : Res Z := naive_loop s 0 0.

(** C6 (counterexample). [as_2bit] does not reject long inputs before
    delegating: with backends that agree with the scalar backend on every
    input of length at most 32 but assume the bound, it returns a packed
    value for 33 times 'A' instead of [SequenceTooLong 33]. *)
Lemma as_2bit_dispatch_no_length_check :
  (forall s, (length s <= 32)%nat -> unchecked_backend s = naive_as_2bit s)
  /\ as_2bit_with (mkBackends unchecked_backend unchecked_backend unchecked_backend)
                  cfg_scalar (repeat x41 33) = Ok 0.
Proof.
  split; [|reflexivity]. intros s Hs. unfold unchecked_backend, naive_as_2bit.
  destruct (Nat.ltb_spec 32 (length s)); [lia|reflexivity].
Qed.

(** C6 (amended). The dispatcher [as_2bit] checks no length itself: on
    every configuration it returns, unchanged, the result of one of the
    backends on the whole input; the rejection of inputs longer than 32
    with [SequenceTooLong] is done by each backend, whatever the bytes. *)
Theorem as_2bit_length_bound_in_backends :
  (forall bk cfg s,
      as_2bit_with bk cfg s = naive_b bk s
      \/ as_2bit_with bk cfg s = aarch64_b bk s
      \/ as_2bit_with bk cfg s = avx_b bk s)
  /\ (forall s, (32 < length s)%nat ->
        naive_as_2bit s = Err (SequenceTooLong (length s))
        /\ neon_as_2bit s = Err (SequenceTooLong (length s))
        /\ avx_as_2bit s = Err (SequenceTooLong (length s)))
  /\ (forall cfg s, (32 < length s)%nat -> as_2bit cfg s = Err (SequenceTooLong (length s))).
Proof.
  split; [|split].
  - intros bk [[] [] [] []] s; cbn; auto.
  - intros s Hs. unfold naive_as_2bit, neon_as_2bit, avx_as_2bit, vec_as_2bit.
    destruct (Nat.ltb_spec 32 (length s)); [|lia]. auto.
  - intros cfg s Hs. rewrite as_2bit_ref. unfold pack_ref.
    destruct (Nat.ltb_spec 32 (length s)); [reflexivity|lia].
Qed.

(** C7. [as_2bit] succeeds on every valid sequence of 32 symbols and fails
    with [SequenceTooLong 33] on every sequence of 33 bytes. *)
Theorem as_2bit_length_boundary cfg s t :
  forallb is_valid s = true -> length s = 32%nat -> length t = 33%nat ->
  (exists p, as_2bit cfg s = Ok p) /\ as_2bit cfg t = Err (SequenceTooLong 33).
Proof.
  intros Hv Hs Ht. rewrite !as_2bit_ref. unfold pack_ref. rewrite Hs, Ht. split.
  - apply first_invalid_None in Hv. rewrite Hv. eexists. reflexivity.
  - reflexivity.
Qed.

(** C8. [from_2bit p L] fails exactly when [L > 32], with
    [InvalidLength L]; for [L <= 32] it returns [Ok] and never reaches the
    [unreachable!()] arm. *)
Theorem from_2bit_outcomes p L :
  match from_2bit p L with
  | Ok _ => (L <= 32)%nat
  | Err e => (32 < L)%nat /\ e = InvalidLength L
  | Panic => False
  end.
Proof.
  destruct (Nat.ltb_spec 32 L) as [H|H].
  - unfold from_2bit. destruct (Nat.ltb_spec 32 L); [|lia]. auto.
  - rewrite from_2bit_ok by exact H. exact H.
Qed.

Lemma codes_packed_uppercase s :
  forallb is_valid s = true -> codes_packed (uppercase s) = codes_packed s.
Proof.
  induction s as [|b s IH]; [reflexivity|]. cbn [forallb uppercase map codes_packed].
  intros [Hb Hs]%andb_prop. fold (uppercase s).
  rewrite IH by exact Hs. destruct (to_upper_valid b Hb) as [_ ->]. reflexivity.
Qed.

Lemma uppercase_valid s :
  forallb is_valid s = true -> forallb is_valid (uppercase s) = true.
Proof.
  induction s as [|b s IH]; [reflexivity|]. cbn [forallb uppercase map].
  intros [Hb Hs]%andb_prop. fold (uppercase s).
  rewrite IH by exact Hs. destruct (to_upper_valid b Hb) as [-> _]. reflexivity.
Qed.

(** C9. On every valid sequence of length at most 32, [as_2bit] gives the
    same result on [s] and on its uppercase form. *)
Theorem as_2bit_case_insensitive cfg s :
  forallb is_valid s = true -> (length s <= 32)%nat ->
  as_2bit cfg s = as_2bit cfg (uppercase s).
Proof.
  intros Hv Hlen. rewrite !as_2bit_ref. unfold pack_ref.
  unfold uppercase at 1. rewrite length_map.
  destruct (Nat.ltb_spec 32 (length s)); [lia|].
  pose proof (uppercase_valid s Hv) as Hu.
  apply first_invalid_None in Hv, Hu. rewrite Hv, Hu.
  rewrite codes_packed_uppercase by (apply first_invalid_None; exact Hv).
  reflexivity.
Qed.

(** C10. For [L <= 32], [from_2bit p L] depends only on the low [2*L]
    bits of [p]. *)
Theorem from_2bit_low_bits p q L :
  (L <= 32)%nat ->
  p mod 2 ^ Z.of_nat (2 * L) = q mod 2 ^ Z.of_nat (2 * L) ->
  from_2bit p L = from_2bit q L.
Proof.
  intros HL Hpq. rewrite !from_2bit_ok by exact HL. f_equal.
  apply map_ext_in. intros j Hj. apply in_seq in Hj. f_equal.
  unfold field. apply Z.bits_inj'. intros n Hn.
  rewrite !Z.land_spec.
  destruct (Z.testbit 3 n) eqn:E3; [|rewrite !andb_false_r; reflexivity].
  assert (n < 2).
  { destruct (Z.lt_ge_cases n 2); [assumption|].
    rewrite Z.bits_above_log2 in E3; [discriminate|lia|cbn; lia]. }
  rewrite !Z.shiftr_spec by lia.
  rewrite <- (Z.mod_pow2_bits_low p (Z.of_nat (2 * L))) by lia.
  rewrite <- (Z.mod_pow2_bits_low q (Z.of_nat (2 * L))) by lia.
  rewrite Hpq. reflexivity.
Qed.

(** ** Witnesses: the claims' hypotheses hold at concrete inputs *)

Lemma as_2bit_from_2bit_roundtrip_witness :
  forallb is_valid [x61; x43; x67; x54] = true
  /\ (length [x61; x43; x67; x54] <= 32)%nat
  /\ match as_2bit cfg_avx [x61; x43; x67; x54] with
     | Ok p => from_2bit p 4 = Ok [x41; x43; x47; x54]
     | _ => False
     end.
Proof.
  split; [reflexivity|]. split; [cbn; lia|].
  apply (as_2bit_from_2bit_roundtrip cfg_avx [x61; x43; x67; x54]); [reflexivity|cbn; lia].
Defined.

Lemma as_2bit_bit_layout_witness :
  forallb is_valid [x41; x43; x47; x54] = true
  /\ (length [x41; x43; x47; x54] <= 32)%nat
  /\ as_2bit cfg_neon [x41; x43; x47; x54] = Ok (pack_or [x41; x43; x47; x54])
  /\ pack_or [x41; x43; x47; x54] = 228.
Proof.
  split; [reflexivity|]. split; [cbn; lia|]. split; [|reflexivity].
  apply (as_2bit_bit_layout cfg_neon [x41; x43; x47; x54]); [reflexivity|cbn; lia].
Defined.

Lemma from_2bit_fields_witness :
  (4 <= 32)%nat
  /\ exists out, from_2bit 228 4 = Ok out /\ length out = 4%nat
     /\ forall i, (i < 4)%nat ->
        decode (Z.land (Z.shiftr 228 (Z.of_nat (2 * i))) 3) = Some (nth i out x41).
Proof. split; [lia|]. apply from_2bit_fields. lia. Defined.

Lemma as_2bit_first_invalid_base_witness :
  (length ([x41; x43; x47] ++ x4e :: [x6e]) <= 32)%nat
  /\ forallb is_valid [x41; x43; x47] = true /\ is_valid x4e = false
  /\ as_2bit cfg_scalar ([x41; x43; x47] ++ x4e :: [x6e]) = Err (InvalidBase x4e).
Proof.
  split; [cbn; lia|]. split; [reflexivity|]. split; [reflexivity|].
  apply as_2bit_first_invalid_base; [cbn; lia|reflexivity|reflexivity].
Defined.

Lemma as_2bit_length_boundary_witness :
  forallb is_valid (repeat x74 32) = true /\ length (repeat x74 32) = 32%nat
  /\ length (repeat x4e 33) = 33%nat
  /\ (exists p, as_2bit cfg_avx (repeat x74 32) = Ok p)
  /\ as_2bit cfg_avx (repeat x4e 33) = Err (SequenceTooLong 33).
Proof.
  split; [reflexivity|]. split; [reflexivity|]. split; [reflexivity|].
  apply as_2bit_length_boundary; reflexivity.
Defined.

Lemma as_2bit_case_insensitive_witness :
  forallb is_valid [x61; x63; x47; x74] = true
  /\ (length [x61; x63; x47; x74] <= 32)%nat
  /\ as_2bit cfg_neon [x61; x63; x47; x74] = as_2bit cfg_neon (uppercase [x61; x63; x47; x74]).
Proof.
  split; [reflexivity|]. split; [cbn; lia|].
  apply as_2bit_case_insensitive; [reflexivity|cbn; lia].
Defined.

Lemma from_2bit_low_bits_witness :
  (4 <= 32)%nat /\ 228 mod 2 ^ Z.of_nat (2 * 4) = 2020 mod 2 ^ Z.of_nat (2 * 4)
  /\ from_2bit 228 4 = from_2bit 2020 4.
Proof.
  split; [lia|]. split; [reflexivity|].
  apply from_2bit_low_bits; [lia|reflexivity].
Defined.

(** ** Further properties of [from_2bit] and of the dispatcher *)

Lemma field_range p j : 0 <= field p j < 4.
Proof.
  unfold field. change 3 with (Z.ones 2). rewrite Z.land_ones by lia.
  apply Z.mod_pos_bound. lia.
Qed.

Lemma decode_or_A_inj x y :
  0 <= x < 4 -> 0 <= y < 4 -> decode_or_A x = decode_or_A y -> x = y.
Proof.
  intros Hx Hy.
  assert (x = 0 \/ x = 1 \/ x = 2 \/ x = 3) as Ex by lia.
  assert (y = 0 \/ y = 1 \/ y = 2 \/ y = 3) as Ey by lia.
  destruct Ex as [-> | [-> | [-> | ->]]], Ey as [-> | [-> | [-> | ->]]];
    cbv; congruence.
Qed.

Lemma decode_or_A_valid x :
  0 <= x < 4 ->
  is_valid (decode_or_A x) = true /\ to_upper (decode_or_A x) = decode_or_A x
  /\ code_of (decode_or_A x) = x.
Proof.
  intros Hx. assert (x = 0 \/ x = 1 \/ x = 2 \/ x = 3) as Ex by lia.
  destruct Ex as [-> | [-> | [-> | ->]]]; cbv; auto.
Qed.

(** Bit [r] of field [j] is bit [2j + r] of the packed value. *)
Lemma testbit_field p j r :
  0 <= r < 2 -> Z.testbit (field p j) r = Z.testbit p (Z.of_nat (2 * j) + r).
Proof.
  intros Hr. unfold field. rewrite Z.land_spec, Z.shiftr_spec by lia.
  assert (Z.testbit 3 r = true) as ->.
  { assert (r = 0 \/ r = 1) as [->| ->] by lia; reflexivity. }
  rewrite andb_true_r. f_equal. lia.
Qed.

(** Two values agreeing on their first [L] fields agree modulo [2^(2L)]. *)
Lemma fields_eq_mod p q L :
  (forall j, (j < L)%nat -> field p j = field q j) ->
  p mod 2 ^ Z.of_nat (2 * L) = q mod 2 ^ Z.of_nat (2 * L).
Proof.
  intros Hf. apply Z.bits_inj'. intros n Hn.
  destruct (Z.lt_ge_cases n (Z.of_nat (2 * L))) as [Hl|Hl].
  - rewrite !Z.mod_pow2_bits_low by exact Hl.
    set (j := Z.to_nat (n / 2)). set (r := n mod 2).
    assert (Hr : 0 <= r < 2) by (apply Z.mod_pos_bound; lia).
    assert (Hn2 : n = Z.of_nat (2 * j) + r).
    { unfold j, r. rewrite Nat2Z.inj_mul, Z2Nat.id by (apply Z.div_pos; lia).
      apply Z.div_mod. lia. }
    rewrite Hn2, <- !testbit_field by exact Hr.
    rewrite Hf; [reflexivity|]. lia.
  - rewrite !Z.mod_pow2_bits_high by lia. reflexivity.
Qed.

Lemma mod_eq_fields p q L j :
  p mod 2 ^ Z.of_nat (2 * L) = q mod 2 ^ Z.of_nat (2 * L) -> (j < L)%nat ->
  field p j = field q j.
Proof.
  intros Hpq Hj. apply Z.bits_inj'. intros n Hn.
  unfold field. rewrite !Z.land_spec.
  destruct (Z.testbit 3 n) eqn:E3; [|rewrite !andb_false_r; reflexivity].
  assert (n < 2).
  { destruct (Z.lt_ge_cases n 2); [assumption|].
    rewrite Z.bits_above_log2 in E3; [discriminate|lia|cbn; lia]. }
  rewrite !Z.shiftr_spec by lia.
  rewrite <- (Z.mod_pow2_bits_low p (Z.of_nat (2 * L))) by lia.
  rewrite <- (Z.mod_pow2_bits_low q (Z.of_nat (2 * L))) by lia.
  rewrite Hpq. reflexivity.
Qed.

(** Unpacking fewer bases gives a prefix of unpacking more: the
    "partial unpacking" of the documentation of [from_2bit]. *)
Theorem from_2bit_prefix p L1 L2 :
  (L1 <= L2)%nat -> (L2 <= 32)%nat ->
  match from_2bit p L1, from_2bit p L2 with
  | Ok out1, Ok out2 => out1 = firstn L1 out2
  | _, _ => False
  end.
Proof.
  intros H12 H2. rewrite !from_2bit_ok by lia.
  rewrite firstn_map. f_equal.
  replace L2 with (L1 + (L2 - L1))%nat at 1 by lia.
  rewrite seq_app, firstn_app, length_seq, Nat.sub_diag, firstn_O, app_nil_r.
  rewrite firstn_all2 by (rewrite length_seq; lia). reflexivity.
Qed.

(** Every byte [from_2bit] outputs is one of the uppercase letters
    A, C, G, T: the output is valid packing input and its own uppercase. *)
Theorem from_2bit_output_alphabet p L :
  (L <= 32)%nat ->
  match from_2bit p L with
  | Ok out => forallb is_valid out = true /\ uppercase out = out
  | _ => False
  end.
Proof.
  intros HL. rewrite from_2bit_ok by exact HL. split.
  - apply forallb_forall. intros b Hb. apply in_map_iff in Hb as [j [<- _]].
    apply decode_or_A_valid, field_range.
  - unfold uppercase. rewrite map_map. apply map_ext. intros j.
    apply decode_or_A_valid, field_range.
Qed.

(** Unpacking [L <= 32] bases is lossless on the low [2L] bits: two packed
    values give the same output exactly when they agree on those bits. *)
Theorem from_2bit_eq_iff_low_bits p q L :
  (L <= 32)%nat ->
  from_2bit p L = from_2bit q L
  <-> p mod 2 ^ Z.of_nat (2 * L) = q mod 2 ^ Z.of_nat (2 * L).
Proof.
  intros HL. rewrite !from_2bit_ok by exact HL. split.
  - intros E. injection E as E. apply fields_eq_mod. intros j Hj.
    apply decode_or_A_inj; [apply field_range|apply field_range|].
    apply (f_equal (fun l => nth j l x41)) in E.
    rewrite !(nth_map_lt _ _ _ 0%nat) in E by (rewrite length_seq; exact Hj).
    rewrite seq_nth in E by exact Hj. exact E.
  - intros Hpq. f_equal. apply map_ext_in. intros j Hj. apply in_seq in Hj.
    f_equal. apply (mod_eq_fields p q L); [exact Hpq|lia].
Qed.

(** Packing what [from_2bit p L] returns gives back the low [2L] bits of
    [p], whatever backend [as_2bit] dispatches to. *)
Theorem as_2bit_after_from_2bit cfg p L :
  (L <= 32)%nat ->
  match from_2bit p L with
  | Ok out => as_2bit cfg out = Ok (p mod 2 ^ Z.of_nat (2 * L))
  | _ => False
  end.
Proof.
  intros HL. pose proof (from_2bit_output_alphabet p L HL) as Ha.
  rewrite from_2bit_ok in * by exact HL. destruct Ha as [Hv _].
  set (out := map _ (seq 0 L)) in *.
  assert (Hlen : length out = L) by (unfold out; rewrite length_map, length_seq; reflexivity).
  rewrite as_2bit_ref. unfold pack_ref. rewrite Hlen.
  destruct (Nat.ltb_spec 32 L); [lia|].
  apply first_invalid_None in Hv as Hf. rewrite Hf. f_equal.
  pose proof (codes_packed_range out) as Hr. rewrite Hlen in Hr.
  rewrite <- (Z.mod_small (codes_packed out) (2 ^ Z.of_nat (2 * L))) by exact Hr.
  apply fields_eq_mod. intros j Hj.
  rewrite field_codes_packed by lia. unfold out.
  rewrite (nth_map_lt _ _ _ 0%nat) by (rewrite length_seq; exact Hj).
  rewrite seq_nth by exact Hj. apply decode_or_A_valid, field_range.
Qed.

(** With the [nosimd] feature, or on a target other than aarch64 and
    x86_64, [as_2bit] always runs the scalar backend, whatever the
    capability probes say. *)
Theorem as_2bit_scalar_only cfg bk s :
  feature_nosimd cfg = true \/ target_arch cfg = OtherArch ->
  as_2bit_with bk cfg s = naive_b bk s.
Proof.
  destruct cfg as [[] [] [] []]; cbn; intros [H|H]; try discriminate; reflexivity.
Qed.

(** The AVX backend is never consulted unless the target is x86_64, the
    [nosimd] feature is off and AVX has been detected: replacing it by any
    other function changes nothing. *)
Theorem as_2bit_avx_gated cfg bk other s :
  target_arch cfg <> X86_64 \/ feature_nosimd cfg = true \/ avx_detected cfg = false ->
  as_2bit_with bk cfg s = as_2bit_with (mkBackends (naive_b bk) (aarch64_b bk) other) cfg s.
Proof.
  destruct cfg as [[] [] [] []]; cbn; intros [H|[H|H]];
    try reflexivity; try discriminate; congruence.
Qed.

(** The NEON backend is never consulted unless the target is aarch64, the
    [nosimd] feature is off and NEON has been detected. *)
Theorem as_2bit_neon_gated cfg bk other s :
  target_arch cfg <> Aarch64 \/ feature_nosimd cfg = true \/ neon_detected cfg = false ->
  as_2bit_with bk cfg s = as_2bit_with (mkBackends (naive_b bk) other (avx_b bk)) cfg s.
Proof.
  destruct cfg as [[] [] [] []]; cbn; intros [H|[H|H]];
    try reflexivity; try discriminate; congruence.
Qed.

Lemma from_2bit_prefix_witness :
  (2 <= 4)%nat /\ (4 <= 32)%nat
  /\ match from_2bit 228 2, from_2bit 228 4 with
     | Ok out1, Ok out2 => out1 = firstn 2 out2
     | _, _ => False
     end.
Proof. split; [lia|]. split; [lia|]. apply from_2bit_prefix; lia. Defined.

Lemma from_2bit_output_alphabet_witness :
  (32 <= 32)%nat
  /\ match from_2bit (-1) 32 with
     | Ok out => forallb is_valid out = true /\ uppercase out = out
     | _ => False
     end.
Proof. split; [lia|]. apply from_2bit_output_alphabet; lia. Defined.

Lemma from_2bit_eq_iff_low_bits_witness :
  (4 <= 32)%nat
  /\ (from_2bit 228 4 = from_2bit 2020 4
      <-> 228 mod 2 ^ Z.of_nat (2 * 4) = 2020 mod 2 ^ Z.of_nat (2 * 4)).
Proof. split; [lia|]. apply from_2bit_eq_iff_low_bits; lia. Defined.

Lemma as_2bit_after_from_2bit_witness :
  (4 <= 32)%nat
  /\ match from_2bit 2020 4 with
     | Ok out => as_2bit cfg_avx out = Ok (2020 mod 2 ^ Z.of_nat (2 * 4))
     | _ => False
     end.
Proof. split; [lia|]. apply as_2bit_after_from_2bit; lia. Defined.

Lemma as_2bit_scalar_only_witness :
  (feature_nosimd (mkConfig X86_64 true false true) = true
   \/ target_arch (mkConfig X86_64 true false true) = OtherArch)
  /\ as_2bit_with backends (mkConfig X86_64 true false true) [x41; x4e]
     = naive_b backends [x41; x4e].
Proof.
  split; [left; reflexivity|].
  apply as_2bit_scalar_only. left. reflexivity.
Defined.

Lemma as_2bit_avx_gated_witness :
  (target_arch cfg_neon <> X86_64 \/ feature_nosimd cfg_neon = true
   \/ avx_detected cfg_neon = false)
  /\ as_2bit_with backends cfg_neon [x41]
     = as_2bit_with (mkBackends naive_as_2bit neon_as_2bit (fun _ => Ok 7)) cfg_neon [x41].
Proof.
  split; [left; discriminate|].
  apply (as_2bit_avx_gated cfg_neon backends). left. discriminate.
Defined.

Lemma as_2bit_neon_gated_witness :
  (target_arch cfg_avx <> Aarch64 \/ feature_nosimd cfg_avx = true
   \/ neon_detected cfg_avx = false)
  /\ as_2bit_with backends cfg_avx [x41]
     = as_2bit_with (mkBackends naive_as_2bit (fun _ => Ok 7) avx_as_2bit) cfg_avx [x41].
Proof.
  split; [left; discriminate|].
  apply (as_2bit_neon_gated cfg_avx backends). left. discriminate.
Defined.
